(** * The API's claims cache (src/api/src/host/oauth/claimsCache.ts)

    A shallow embedding of the [ClaimsCache] class and of the two packages it
    drives, [js-sha256] (the cache key) and [node-cache] (the store).

    - The store and the log are explicit state, threaded through a small
      state monad; a method of the class is a function from the world it is
      called in to its result and the world it leaves.
    - The clock is an input: every call takes [now], the reading of
      [Date.now()] in epoch milliseconds, and is over within that reading.
    - The methods are [async], but neither touches the store after its first
      [await] (a lookup only writes its line of the log there), so a call is
      one step and calls interleave as wholes.
    - A method that cannot throw is a total function with no error case:
      the key handed to the store is always a string, the only thing the
      store would refuse. *)

From Stdlib Require Import ZArith NArith List String Ascii Lia.
From stdpp Require Import gmap strings pretty.

Local Open Scope Z_scope.

(** ** [import hasher from 'js-sha256'] *)

(** Modelled from the spec: the key derivation ("a fixed-size deterministic
    digest (cryptographic hash) of the raw credential string").  The package
    [js-sha256] is not among the sources; [hasher.sha256 message] is the
    lowercase hexadecimal SHA-256 digest (FIPS 180-4) of the bytes of
    [message].  A [string] is the sequence of its UTF-8 bytes, which is how
    the package reads a JavaScript string. *)
Module hasher.

Local Open Scope N_scope.

(** 32-bit words are [N] with the wrap-around written out. *)
Definition mask32 : N := 0xFFFFFFFF.
Definition add32 (a b : N) : N := N.land (a + b) mask32.
Definition not32 (a : N) : N := N.lxor a mask32.
Definition rotr (n x : N) : N :=
  N.land (N.lor (N.shiftr x n) (N.shiftl x (32 - n))) mask32.

Definition Ch (x y z : N) : N := N.lxor (N.land x y) (N.land (not32 x) z).
Definition Maj (x y z : N) : N :=
  N.lxor (N.lxor (N.land x y) (N.land x z)) (N.land y z).
Definition Sigma0 (x : N) : N := N.lxor (N.lxor (rotr 2 x) (rotr 13 x)) (rotr 22 x).
Definition Sigma1 (x : N) : N := N.lxor (N.lxor (rotr 6 x) (rotr 11 x)) (rotr 25 x).
Definition sigma0 (x : N) : N := N.lxor (N.lxor (rotr 7 x) (rotr 18 x)) (N.shiftr x 3).
Definition sigma1 (x : N) : N := N.lxor (N.lxor (rotr 17 x) (rotr 19 x)) (N.shiftr x 10).

(** The round constants and the initial hash value. *)
Definition K : list N :=
  [ 0x428A2F98; 0x71374491; 0xB5C0FBCF; 0xE9B5DBA5;
    0x3956C25B; 0x59F111F1; 0x923F82A4; 0xAB1C5ED5;
    0xD807AA98; 0x12835B01; 0x243185BE; 0x550C7DC3;
    0x72BE5D74; 0x80DEB1FE; 0x9BDC06A7; 0xC19BF174;
    0xE49B69C1; 0xEFBE4786; 0x0FC19DC6; 0x240CA1CC;
    0x2DE92C6F; 0x4A7484AA; 0x5CB0A9DC; 0x76F988DA;
    0x983E5152; 0xA831C66D; 0xB00327C8; 0xBF597FC7;
    0xC6E00BF3; 0xD5A79147; 0x06CA6351; 0x14292967;
    0x27B70A85; 0x2E1B2138; 0x4D2C6DFC; 0x53380D13;
    0x650A7354; 0x766A0ABB; 0x81C2C92E; 0x92722C85;
    0xA2BFE8A1; 0xA81A664B; 0xC24B8B70; 0xC76C51A3;
    0xD192E819; 0xD6990624; 0xF40E3585; 0x106AA070;
    0x19A4C116; 0x1E376C08; 0x2748774C; 0x34B0BCB5;
    0x391C0CB3; 0x4ED8AA4A; 0x5B9CCA4F; 0x682E6FF3;
    0x748F82EE; 0x78A5636F; 0x84C87814; 0x8CC70208;
    0x90BEFFFA; 0xA4506CEB; 0xBEF9A3F7; 0xC67178F2 ].

Record Digest := mkDigest
  { h0 : N; h1 : N; h2 : N; h3 : N; h4 : N; h5 : N; h6 : N; h7 : N }.

Definition H_init : Digest :=
  mkDigest 0x6A09E667 0xBB67AE85 0x3C6EF372 0xA54FF53A
           0x510E527F 0x9B05688C 0x1F83D9AB 0x5BE0CD19.

(** Padding: the byte 0x80, zero bytes up to 56 modulo 64, and the bit
    length of the message as a big-endian 64-bit number. *)
Definition be_bytes (count : nat) (x : N) : list N :=
  map (fun i => N.land (N.shiftr x (8 * N.of_nat i)) 0xFF) (rev (seq 0 count)).

Definition pad (bytes : list N) : list N :=
  let len := length bytes in
  bytes ++ [0x80] ++ repeat 0 ((119 - len mod 64) mod 64)%nat
        ++ be_bytes 8 (8 * N.of_nat len).

(** Big-endian 32-bit words of a byte sequence (a short tail is dropped;
    a padded message has none). *)
Fixpoint words (bytes : list N) : list N :=
  match bytes with
  | b3 :: b2 :: b1 :: b0 :: rest =>
      N.lor (N.shiftl b3 24) (N.lor (N.shiftl b2 16) (N.lor (N.shiftl b1 8) b0))
      :: words rest
  | _ => []
  end.

(** The message schedule: the 16 words of a block extended to 64. *)
Fixpoint extend (count : nat) (W : list N) : list N :=
  match count with
  | O => W
  | S count' =>
      let t := length W in
      let w i := nth (t - i) W 0 in
      extend count' (W ++ [add32 (add32 (sigma1 (w 2%nat)) (w 7%nat))
                                 (add32 (sigma0 (w 15%nat)) (w 16%nat))])
  end.

Definition round (s : Digest) (kw : N * N) : Digest :=
  let T1 := add32 (add32 (add32 (h7 s) (Sigma1 (h4 s)))
                         (add32 (Ch (h4 s) (h5 s) (h6 s)) (fst kw))) (snd kw) in
  let T2 := add32 (Sigma0 (h0 s)) (Maj (h0 s) (h1 s) (h2 s)) in
  mkDigest (add32 T1 T2) (h0 s) (h1 s) (h2 s) (add32 (h3 s) T1) (h4 s) (h5 s) (h6 s).

Definition compress (H : Digest) (block : list N) : Digest :=
  let s := fold_left round (combine K (extend 48 block)) H in
  mkDigest (add32 (h0 H) (h0 s)) (add32 (h1 H) (h1 s))
           (add32 (h2 H) (h2 s)) (add32 (h3 H) (h3 s))
           (add32 (h4 H) (h4 s)) (add32 (h5 H) (h5 s))
           (add32 (h6 H) (h6 s)) (add32 (h7 H) (h7 s)).

(** One block is 16 words; [blocks] is the number of blocks left. *)
Fixpoint hash_blocks (blocks : nat) (H : Digest) (ws : list N) : Digest :=
  match blocks with
  | O => H
  | S blocks' => hash_blocks blocks' (compress H (firstn 16 ws)) (skipn 16 ws)
  end.

Definition hex_digit (x : N) : ascii :=
  nth (N.to_nat (N.land x 0xF)) (list_ascii_of_string "0123456789abcdef") "0"%char.

Definition hex32 (x : N) : list ascii :=
  map (fun i => hex_digit (N.shiftr x (4 * N.of_nat i))) (rev (seq 0 8)).

Definition hex (H : Digest) : string :=
  string_of_list_ascii
    (hex32 (h0 H) ++ hex32 (h1 H) ++ hex32 (h2 H) ++ hex32 (h3 H) ++
     hex32 (h4 H) ++ hex32 (h5 H) ++ hex32 (h6 H) ++ hex32 (h7 H)).

Definition digest (message : string) : Digest :=
  let ws := words (pad (map N_of_ascii (list_ascii_of_string message))) in
  hash_blocks (length ws / 16)%nat H_init ws.

Definition sha256 (message : string) : string := hex (digest message).

End hasher.

Arguments hasher.sha256 : simpl never.

(** ** The program state: cache entries, the clock and the log *)

Section ClaimsCache.

(** [import {ApiClaims} from '../../logic/entities/apiClaims']: the class
    is not among the sources and the cache never looks inside a claims
    object, so the type is a parameter.  Its values are objects, which
    JavaScript always reads as true in [if (!claims)]. *)
Context {ApiClaims : Type}.

(** [import {OAuthConfiguration} from '../configuration/oauthConfiguration']:
    the one field the constructor reads.  Numbers are whole throughout: the
    minutes of the configuration, the [exp] seconds of a token and the
    milliseconds of the clock are all [Z]. *)
Record OAuthConfiguration := { maxClaimsCacheMinutes : Z }.

(** Modelled from the spec: the store behind [_cache] ("a mapping from
    CacheKey to CacheEntry, plus a configured maximum retention duration").
    The package [node-cache] is not among the sources.  It keeps each value
    [v] wrapped with the instant [t], in epoch milliseconds, after which the
    entry has expired; [t = 0] marks an entry that never expires.  The
    package stores and returns copies of the values, which are equal values
    here. *)
Record Wrapped := { t : Z; v : ApiClaims }.
Record Options := { stdTTL : Z }.
Record NodeCache := { options : Options; data : gmap string Wrapped }.

Record ClaimsCache := { _cache : NodeCache }.

(** The world a call runs in: the singleton cache and the lines written
    through [ApiLogger], oldest first.  The clock is not part of it: every
    call takes [now], the reading of [Date.now()] in epoch milliseconds
    during that call. *)
Record World := { this : ClaimsCache; logged : list string }.

Definition IO (A : Type) : Type := World -> A * World.

#[local] Instance IO_ret : MRet IO := fun A a w => (a, w).
#[local] Instance IO_bind : MBind IO :=
  fun A B f m w => let '(a, w') := m w in f a w'.

Definition entries (w : World) : gmap string Wrapped := data (_cache (this w)).
Definition maxTtl (w : World) : Z := stdTTL (options (_cache (this w))).

Definition with_entries (f : gmap string Wrapped -> gmap string Wrapped)
    (w : World) : World :=
  {| this := {| _cache := {| options := options (_cache (this w));
                             data := f (entries w) |} |};
     logged := logged w |}.

(** Modelled from the spec: [ApiLogger.info] (utilities/apiLogger is not
    among the sources) is the "external logging/metrics collaborator"; a
    call adds one line to the log and does nothing else. *)
Definition ApiLogger_info (message : string) : IO unit :=
  fun w => (tt, {| this := this w; logged := logged w ++ [message] |}).

(** *** [new NodeCache({stdTTL})] and its methods *)

Definition NodeCache_new (opts : Options) : NodeCache :=
  {| options := opts; data := ∅ |}.

(** The listener the constructor registers for ['expired'] (lines 29-31);
    it is the only listener of the program. *)
Definition expired (key : string) : IO unit :=
  ApiLogger_info ("Expired token has been removed from the cache (hash: " +:+ key +:+ ")").

(** Modelled from the spec: [set(key, value, ttl)] "stores the entry with
    expiry now + ttl", [ttl] in seconds, over whatever the key held
    ("overwrites the prior entry and its expiry").  A time to live of zero
    is the package's word for no expiry at all ("caching a negative/zero TTL
    entry would ... create a permanently stale hit"). *)
Definition _wrap (now : Z) (value : ApiClaims) (ttl : Z) : Wrapped :=
  let livetime := if decide (ttl = 0) then 0 else now + ttl * 1000 in
  {| t := livetime; v := value |}.

Definition NodeCache_set (now : Z) (key : string) (value : ApiClaims) (ttl : Z)
    : IO bool :=
  fun w => (true, with_entries (insert key (_wrap now value ttl)) w).

Definition NodeCache_del (key : string) : IO unit :=
  fun w => (tt, with_entries (delete key) w).

(** Modelled from the spec: [_check] decides whether "the entry's expiry
    has passed", the instant lying strictly in the past; such an entry is
    deleted ("lazy cleanup of the expired entry") and announced to the
    ['expired'] listener ("an eviction/expiry event (key digest, not raw
    credential)").  The answer says whether the entry is still good. *)
Definition _check (now : Z) (key : string) (d : Wrapped) : IO bool :=
  if decide (t d <> 0 /\ t d < now)
  then NodeCache_del key ;; expired key ;; mret false
  else mret true.

(** Modelled from the spec: [get(key)]; "if no entry exists for the key,
    or the entry's expiry has passed, returns Miss", the package's
    [undefined], here [None]. *)
Definition NodeCache_get (now : Z) (key : string) : IO (option ApiClaims) :=
  fun w =>
    match entries w !! key with
    | Some d => (ok ← _check now key d; mret (if ok : bool then Some (v d) else None)) w
    | None => (None, w)
    end.

(** Modelled from the spec: "a periodic sweep that proactively removes
    expired entries".  The package's [_checkData] runs [_check] on the keys
    of the store one after the other; this is one such step, so that a
    history may hold them in any number and order. *)
Definition NodeCache_checkData_step (now : Z) (key : string) : IO unit :=
  fun w =>
    match entries w !! key with
    | Some d => (_check now key d ;; mret tt) w
    | None => (tt, w)
    end.

(** [this._cache.options.stdTTL] *)
Definition options_stdTTL : IO Z := fun w => (maxTtl w, w).

(** *** [class ClaimsCache] *)

Definition constructor (configuration : OAuthConfiguration) : ClaimsCache :=
  let defaultExpirySeconds := maxClaimsCacheMinutes configuration * 60 in
  {| _cache := NodeCache_new {| stdTTL := defaultExpirySeconds |} |}.

(** Get claims from the cache or return null ([None]) if not found.  A
    claims object is never falsy, so [!claims] holds exactly of the store's
    miss. *)
Definition getClaimsForToken (now : Z) (accessToken : string)
    : IO (option ApiClaims) :=
  let hash := hasher.sha256 accessToken in
  claims ← NodeCache_get now hash;
  match claims with
  | None =>
      ApiLogger_info ("New token will be added to claims cache (hash: " +:+ hash +:+ ")") ;;
      mret None
  | Some claims =>
      ApiLogger_info ("Found existing token in claims cache (hash: " +:+ hash +:+ ")") ;;
      mret (Some claims)
  end.

(** Add claims to the cache until the token's time to live. *)
Definition addClaimsForToken (now : Z) (accessToken : string) (expiry : Z)
    (claims : ApiClaims) : IO unit :=
  let epochSeconds := now / 1000 in
  let secondsToCache := expiry - epochSeconds in
  if decide (secondsToCache > 0) then
    let hash := hasher.sha256 accessToken in
    ApiLogger_info ("Token to be cached will expire in " +:+ pretty secondsToCache
                      +:+ " seconds (hash: " +:+ hash +:+ ")") ;;
    stdTTL ← options_stdTTL;
    let secondsToCache :=
      if decide (secondsToCache > stdTTL) then stdTTL else secondsToCache in
    ApiLogger_info ("Adding token to claims cache for " +:+ pretty secondsToCache
                      +:+ " seconds (hash: " +:+ hash +:+ ")") ;;
    NodeCache_set now hash claims secondsToCache ;;
    mret tt
  else mret tt.

(** The service at startup: a fresh cache and an empty log. *)
Definition startup (configuration : OAuthConfiguration) : World :=
  {| this := constructor configuration; logged := [] |}.

(** *** Histories of calls *)

Inductive Call :=
| GetClaims (now : Z) (accessToken : string)
| AddClaims (now : Z) (accessToken : string) (expiry : Z) (claims : ApiClaims)
| CheckData (now : Z) (key : string).

Definition time_of (c : Call) : Z :=
  match c with GetClaims now _ | AddClaims now _ _ _ | CheckData now _ => now end.

Definition step (w : World) (c : Call) : World :=
  match c with
  | GetClaims now accessToken => snd (getClaimsForToken now accessToken w)
  | AddClaims now accessToken expiry claims =>
      snd (addClaimsForToken now accessToken expiry claims w)
  | CheckData now key => snd (NodeCache_checkData_step now key w)
  end.

Definition run (calls : list Call) (w : World) : World := fold_left step calls w.

(** Does the call store something under [key]? *)
Definition inserts_under (key : string) (c : Call) : bool :=
  match c with
  | AddClaims now accessToken expiry _ =>
      bool_decide (hasher.sha256 accessToken = key /\ expiry - now / 1000 > 0)
  | _ => false
  end.

(** No call of the history stores anything under [key]. *)
Definition never_inserts (key : string) (calls : list Call) : bool :=
  forallb (fun c => negb (inserts_under key c)) calls.

(** Every call of the history reads a clock between [lo] and [hi]. *)
Definition clock_within (lo hi : Z) (calls : list Call) : bool :=
  forallb (fun c => bool_decide (lo <= time_of c <= hi)) calls.

(** Lookups of one credential, one after the other, at the given readings
    of the clock. *)
Fixpoint lookups (times : list Z) (accessToken : string)
    : IO (list (option ApiClaims)) :=
  match times with
  | [] => mret []
  | now :: times' =>
      r ← getClaimsForToken now accessToken;
      rs ← lookups times' accessToken;
      mret (r :: rs)
  end.

(** What a lookup at [now] makes of the slot of its key. *)
Definition read_slot (now : Z) (slot : option Wrapped) : option ApiClaims :=
  match slot with
  | Some d => if decide (t d <> 0 /\ t d < now) then None else Some (v d)
  | None => None
  end.

(** The time to live [addClaimsForToken] hands to the store. *)
Definition clamped (w : World) (now expiry : Z) : Z :=
  Z.min (expiry - now / 1000) (maxTtl w).

(** Where an entry of the store comes from: an insertion of the history. *)
Definition inserted_by (calls : list Call) (stdTTL : Z) (key : string)
    (d : Wrapped) : Prop :=
  exists now accessToken expiry,
    In (AddClaims now accessToken expiry (v d)) calls
    /\ hasher.sha256 accessToken = key
    /\ expiry - now / 1000 > 0
    /\ d = _wrap now (v d) (Z.min (expiry - now / 1000) stdTTL).

(** The last insertion of the history that stored something under [key]:
    its reading of the clock, the expiry it was given and its claims. *)
Definition later_insert (key : string) (found : option (Z * Z * ApiClaims))
    (c : Call) : option (Z * Z * ApiClaims) :=
  match c with
  | AddClaims now _ expiry claims =>
      if inserts_under key c then Some (now, expiry, claims) else found
  | _ => found
  end.

Definition last_insert (key : string) (calls : list Call)
    : option (Z * Z * ApiClaims) :=
  fold_left (later_insert key) calls None.

(** Does the call concern [key]: a lookup or an insertion of a credential
    with that digest, or a sweep step on the key? *)
Definition concerns (key : string) (c : Call) : bool :=
  match c with
  | GetClaims _ accessToken | AddClaims _ accessToken _ _ =>
      bool_decide (hasher.sha256 accessToken = key)
  | CheckData _ key' => bool_decide (key' = key)
  end.



(** No call of the history concerns [key]. *)
Definition untouched (key : string) (calls : list Call) : bool :=
  forallb (fun c => negb (concerns key c)) calls.



(** ** The operations, one projection at a time *)

Ltac run_io :=
  unfold getClaimsForToken, addClaimsForToken, NodeCache_checkData_step,
    NodeCache_get, NodeCache_set, NodeCache_del, _check, expired, ApiLogger_info,
    options_stdTTL,
    mbind, mret, IO_bind, IO_ret, with_entries, entries, maxTtl in *;
  simpl in *.

Lemma getClaimsForToken_result now accessToken w :
  fst (getClaimsForToken now accessToken w)
  = read_slot now (entries w !! hasher.sha256 accessToken).
Proof.
  unfold read_slot. run_io.
  destruct (data _ !! _) as [d|]; simpl; [|done].
  destruct (decide _); done.
Qed.

Lemma getClaimsForToken_entries now accessToken w :
  entries (snd (getClaimsForToken now accessToken w))
  = match entries w !! hasher.sha256 accessToken with
    | Some d => if decide (t d <> 0 /\ t d < now)
                then delete (hasher.sha256 accessToken) (entries w)
                else entries w
    | None => entries w
    end.
Proof.
  run_io. destruct (data _ !! _) as [d|]; simpl; [|done].
  destruct (decide _); done.
Qed.

Lemma getClaimsForToken_maxTtl now accessToken w :
  maxTtl (snd (getClaimsForToken now accessToken w)) = maxTtl w.
Proof.
  run_io. destruct (data _ !! _) as [d|]; simpl; [|done].
  destruct (decide _); done.
Qed.

Lemma clamp_min (secondsToCache stdTTL : Z) :
  (if decide (secondsToCache > stdTTL) then stdTTL else secondsToCache)
  = Z.min secondsToCache stdTTL.
Proof. destruct (decide _); lia. Qed.

Lemma addClaimsForToken_discard now accessToken expiry claims w :
  expiry - now / 1000 <= 0 ->
  addClaimsForToken now accessToken expiry claims w = (tt, w).
Proof.
  intros Hle. unfold addClaimsForToken.
  destruct (decide _); [lia | done].
Qed.

Lemma addClaimsForToken_entries now accessToken expiry claims w :
  expiry - now / 1000 > 0 ->
  entries (snd (addClaimsForToken now accessToken expiry claims w))
  = <[hasher.sha256 accessToken := _wrap now claims (clamped w now expiry)]> (entries w).
Proof.
  intros Hpos. unfold clamped. rewrite <- clamp_min. run_io.
  destruct (decide (expiry - now / 1000 > 0)); [done | lia].
Qed.

Lemma addClaimsForToken_maxTtl now accessToken expiry claims w :
  maxTtl (snd (addClaimsForToken now accessToken expiry claims w)) = maxTtl w.
Proof. run_io. destruct (decide (_ > 0)); done. Qed.

Lemma checkData_step_entries now key w :
  entries (snd (NodeCache_checkData_step now key w))
  = match entries w !! key with
    | Some d => if decide (t d <> 0 /\ t d < now) then delete key (entries w)
                else entries w
    | None => entries w
    end.
Proof.
  run_io. destruct (data _ !! _) as [d|]; simpl; [|done].
  destruct (decide _); done.
Qed.

Lemma checkData_step_maxTtl now key w :
  maxTtl (snd (NodeCache_checkData_step now key w)) = maxTtl w.
Proof.
  run_io. destruct (data _ !! _) as [d|]; simpl; [|done].
  destruct (decide _); done.
Qed.

(** ** Histories: what a slot of the store goes through *)

Lemma step_maxTtl w c : maxTtl (step w c) = maxTtl w.
Proof.
  destruct c; simpl.
  - apply getClaimsForToken_maxTtl.
  - apply addClaimsForToken_maxTtl.
  - apply checkData_step_maxTtl.
Qed.

Lemma run_maxTtl calls w : maxTtl (run calls w) = maxTtl w.
Proof.
  revert w. induction calls as [|c calls IH]; intros w; simpl; [done|].
  unfold run in IH. rewrite IH. apply step_maxTtl.
Qed.

(** A call either leaves a slot as it was, empties it, or is an insertion
    under its key. *)
Lemma step_slot w c key :
  entries (step w c) !! key = entries w !! key
  \/ (entries (step w c) !! key = None
      /\ exists d, entries w !! key = Some d /\ t d <> 0 /\ t d < time_of c)
  \/ (exists now accessToken expiry claims,
        c = AddClaims now accessToken expiry claims
        /\ hasher.sha256 accessToken = key /\ expiry - now / 1000 > 0
        /\ entries (step w c) !! key = Some (_wrap now claims (clamped w now expiry))).
Proof.
  destruct c as [now tok | now tok expiry claims | now k]; simpl.
  - rewrite getClaimsForToken_entries.
    destruct (entries w !! hasher.sha256 tok) as [d|] eqn:Hd; [|by left].
    destruct (decide _) as [Hexp|]; [|by left].
    destruct (decide (hasher.sha256 tok = key)) as [<-|Hne].
    + right; left. rewrite lookup_delete_eq. eauto.
    + left. by rewrite lookup_delete_ne.
  - destruct (decide (expiry - now / 1000 > 0)) as [Hpos|Hneg].
    + rewrite addClaimsForToken_entries by done.
      destruct (decide (hasher.sha256 tok = key)) as [<-|Hne].
      * right; right. exists now, tok, expiry, claims.
        by rewrite lookup_insert_eq.
      * left. by rewrite lookup_insert_ne.
    + left. by rewrite addClaimsForToken_discard by lia.
  - rewrite checkData_step_entries.
    destruct (entries w !! k) as [d|] eqn:Hd; [|by left].
    destruct (decide _) as [Hexp|]; [|by left].
    destruct (decide (k = key)) as [<-|Hne].
    + right; left. rewrite lookup_delete_eq. eauto.
    + left. by rewrite lookup_delete_ne.
Qed.

Lemma inserts_under_false key now accessToken expiry (claims : ApiClaims) :
  inserts_under key (AddClaims now accessToken expiry claims) = false ->
  hasher.sha256 accessToken = key -> expiry - now / 1000 > 0 -> False.
Proof.
  simpl. intros H Hk Hpos. apply bool_decide_eq_false in H. by apply H.
Qed.

(** An empty slot stays empty as long as nothing is inserted under its key. *)
Lemma run_slot_absent calls w key :
  never_inserts key calls = true ->
  entries w !! key = None ->
  entries (run calls w) !! key = None.
Proof.
  revert w. induction calls as [|c calls IH]; intros w Hnever Hnone; [done|].
  simpl in Hnever. apply andb_true_iff in Hnever as [Hc Hnever].
  apply negb_true_iff in Hc.
  simpl. apply IH; [done|].
  destruct (step_slot w c key) as [Heq | [[Hgone _] | Hins]].
  - by rewrite Heq.
  - done.
  - destruct Hins as (now & tok & expiry & claims & -> & Hk & Hpos & _).
    by destruct (inserts_under_false _ _ _ _ _ Hc Hk Hpos).
Qed.

(** A slot whose entry is still good at [T] keeps it through calls made no
    later than [T], as long as nothing is inserted under its key. *)
Lemma run_slot_kept calls w key d lo T :
  never_inserts key calls = true ->
  clock_within lo T calls = true ->
  (t d = 0 \/ T <= t d) ->
  entries w !! key = Some d ->
  entries (run calls w) !! key = Some d.
Proof.
  revert w. induction calls as [|c calls IH]; intros w Hnever Hclock Hgood Hd; [done|].
  simpl in Hnever, Hclock.
  apply andb_true_iff in Hnever as [Hc Hnever]. apply negb_true_iff in Hc.
  apply andb_true_iff in Hclock as [Htime Hclock]. apply bool_decide_eq_true in Htime.
  simpl. apply IH; [done..|].
  destruct (step_slot w c key) as [Heq | [[_ Hgone] | Hins]].
  - by rewrite Heq.
  - destruct Hgone as (d' & Hd' & Hne & Hlt). simplify_eq. lia.
  - destruct Hins as (now & tok & expiry & claims & -> & Hk & Hpos & _).
    by destruct (inserts_under_false _ _ _ _ _ Hc Hk Hpos).
Qed.

Lemma run_slot_origin calls w key d :
  entries (run calls w) !! key = Some d ->
  entries w !! key = Some d \/ inserted_by calls (maxTtl w) key d.
Proof.
  revert w. induction calls as [|c calls IH]; intros w Hd; [by left|].
  simpl in Hd. apply IH in Hd. rewrite step_maxTtl in Hd.
  destruct Hd as [Hd | (now & tok & expiry & Hin & Hk & Hpos & Heq)].
  - destruct (step_slot w c key) as [Heq | [[Hgone _] | Hins]].
    + left. by rewrite <- Heq.
    + congruence.
    + destruct Hins as (now & tok & expiry & claims & -> & Hk & Hpos & Hnew).
      right. rewrite Hnew in Hd. injection Hd as <-.
      exists now, tok, expiry. simpl. split; [by left|done].
  - right. exists now, tok, expiry. split; [by right|done].
Qed.

(** An entry that is not yet past its instant is read back as it is. *)
Lemma read_slot_good now d :
  t d = 0 \/ now <= t d -> read_slot now (Some d) = Some (v d).
Proof. intros Hgood. simpl. destruct (decide _); [lia | done]. Qed.

Lemma read_slot_expired now d :
  t d <> 0 -> t d < now -> read_slot now (Some d) = None.
Proof. intros Hne Hlt. simpl. destruct (decide _) as [|Hn]; [done | ]. by destruct Hn. Qed.

(** The instant of a fresh entry, for a time to live that is not zero. *)
Lemma _wrap_t now claims ttl : ttl <> 0 -> t (_wrap now claims ttl) = now + ttl * 1000.
Proof. intros Hne. unfold _wrap. simpl. destruct (decide _); [done | done]. Qed.

(** Within the window of the insertion the fresh entry is still good. *)
Lemma _wrap_good w now expiry claims T :
  T <= Z.min (expiry * 1000) (now + maxTtl w * 1000) ->
  let d := _wrap now claims (clamped w now expiry) in t d = 0 \/ T <= t d.
Proof.
  intros HT. unfold _wrap. simpl.
  destruct (decide _) as [|Hne]; [by left|right].
  unfold clamped in *. pose proof (Z.mod_pos_bound now 1000 ltac:(lia)).
  pose proof (Z.div_mod now 1000 ltac:(lia)). lia.
Qed.

Lemma startup_entries cfg key : entries (startup cfg) !! key = None.
Proof. apply lookup_empty. Qed.

Lemma startup_maxTtl cfg : maxTtl (startup cfg) = maxClaimsCacheMinutes cfg * 60.
Proof. reflexivity. Qed.

Lemma clock_within_In lo hi calls c :
  clock_within lo hi calls = true -> In c calls -> lo <= time_of c <= hi.
Proof.
  intros Hclock Hin. unfold clock_within in Hclock.
  rewrite forallb_forall in Hclock. apply Hclock in Hin.
  by apply bool_decide_eq_true in Hin.
Qed.

Lemma lookups_cons now times accessToken w :
  lookups (now :: times) accessToken w
  = let '(r, w1) := getClaimsForToken now accessToken w in
    let '(rs, w2) := lookups times accessToken w1 in (r :: rs, w2).
Proof. reflexivity. Qed.

(** Lookups of a key whose slot is empty all miss, and leave it empty. *)
Lemma lookups_absent times accessToken w :
  entries w !! hasher.sha256 accessToken = None ->
  Forall (fun r => r = None) (fst (lookups times accessToken w))
  /\ length (fst (lookups times accessToken w)) = length times.
Proof.
  revert w. induction times as [|now times IH]; intros w Hnone; [by split|].
  pose proof (getClaimsForToken_result now accessToken w) as Hres.
  pose proof (getClaimsForToken_entries now accessToken w) as Hent.
  rewrite Hnone in Hres, Hent. simpl in Hres.
  rewrite lookups_cons.
  destruct (getClaimsForToken now accessToken w) as [r w1]. simpl in Hres, Hent.
  specialize (IH w1). rewrite Hent in IH. specialize (IH Hnone).
  destruct (lookups times accessToken w1) as [rs w2]. simpl in *.
  destruct IH as [IH1 IH2]. split; [by constructor | by f_equal].
Qed.

(** ** The claims *)

(** C2.  A lookup of credential [accessToken] made after
    [addClaimsForToken] stored it with a positive remaining lifetime, at a
    clock reading [T] not past min(expiry, insertion time + maxTtl), returns
    exactly the claims inserted.  Other calls may come in between, as long
    as none inserts under the same key. *)
Theorem getClaimsForToken_after_add w now accessToken expiry claims calls T :
  expiry - now / 1000 > 0 ->
  T <= Z.min (expiry * 1000) (now + maxTtl w * 1000) ->
  never_inserts (hasher.sha256 accessToken) calls = true ->
  clock_within now T calls = true ->
  fst (getClaimsForToken T accessToken
         (run calls (snd (addClaimsForToken now accessToken expiry claims w))))
  = Some claims.
Proof.
  intros Hpos Hwindow Hnever Hclock.
  rewrite getClaimsForToken_result.
  pose proof (_wrap_good w now expiry claims T Hwindow) as Hgood. simpl in Hgood.
  rewrite (run_slot_kept calls _ _ (_wrap now claims (clamped w now expiry)) now T);
    try done.
  - by rewrite read_slot_good.
  - rewrite addClaimsForToken_entries by done. apply lookup_insert_eq.
Qed.

(** C3.  When the remaining lifetime is zero or negative,
    [addClaimsForToken] is a no-op: it returns normally, the world is the
    one it was called in, and every later lookup answers as it would have
    without the call. *)
Theorem addClaimsForToken_expired_noop w now accessToken expiry claims :
  expiry - now / 1000 <= 0 ->
  addClaimsForToken now accessToken expiry claims w = (tt, w)
  /\ entries (snd (addClaimsForToken now accessToken expiry claims w)) = entries w
  /\ forall T accessToken',
       getClaimsForToken T accessToken'
         (snd (addClaimsForToken now accessToken expiry claims w))
       = getClaimsForToken T accessToken' w.
Proof.
  intros Hle. rewrite addClaimsForToken_discard by done. done.
Qed.

(** C4, as amended.  With a positive ceiling, every claims object a lookup
    at clock reading [T] returns comes from an insertion of the history, made
    at some reading [now], and the instant [t] of its entry satisfies
    [T <= t] (not [T < t]: the entry is still served at its very instant)
    and [t <= now + maxTtl].  An entry whose instant has passed reads as a
    miss, and that lookup removes it, even though no sweep has run. *)
Theorem getClaimsForToken_hit_is_live cfg calls T accessToken :
  0 < maxClaimsCacheMinutes cfg ->
  clock_within 0 T calls = true ->
  let w := run calls (startup cfg) in
  let key := hasher.sha256 accessToken in
  (forall claims,
     fst (getClaimsForToken T accessToken w) = Some claims ->
     exists now accessToken' expiry d,
       In (AddClaims now accessToken' expiry claims) calls
       /\ hasher.sha256 accessToken' = key
       /\ entries w !! key = Some d /\ v d = claims
       /\ t d = now + Z.min (expiry - now / 1000) (maxTtl w) * 1000
       /\ now <= T /\ T <= t d /\ t d <= now + maxTtl w * 1000)
  /\ (forall d,
        entries w !! key = Some d -> t d < T ->
        fst (getClaimsForToken T accessToken w) = None
        /\ entries (snd (getClaimsForToken T accessToken w)) !! key = None).
Proof.
  intros Hcfg Hclock w key.
  assert (Hmax : maxTtl w = maxClaimsCacheMinutes cfg * 60).
  { unfold w. by rewrite run_maxTtl, startup_maxTtl. }
  assert (Horigin : forall d, entries w !! key = Some d ->
            exists now accessToken' expiry,
              In (AddClaims now accessToken' expiry (v d)) calls
              /\ hasher.sha256 accessToken' = key
              /\ t d = now + Z.min (expiry - now / 1000) (maxTtl w) * 1000
              /\ 0 <= now <= T /\ 0 < t d /\ t d <= now + maxTtl w * 1000).
  { intros d Hd. apply run_slot_origin in Hd.
    destruct Hd as [Hd | (now & tok & expiry & Hin & Hk & Hpos & Heq)].
    - by rewrite startup_entries in Hd.
    - exists now, tok, expiry. rewrite startup_maxTtl in Heq.
      pose proof (clock_within_In _ _ _ _ Hclock Hin) as Hnow. simpl in Hnow.
      rewrite Hmax. rewrite Heq at 2 3 4.
      rewrite _wrap_t by lia. repeat split; try done; lia. }
  split.
  - intros claims Hhit. rewrite getClaimsForToken_result in Hhit.
    fold key in Hhit. destruct (entries w !! key) as [d|] eqn:Hd; [|done].
    destruct (Horigin d eq_refl) as (now & tok & expiry & Hin & Hk & Ht & Hnow & Hpos & Hle).
    simpl in Hhit. destruct (decide _) as [|Hlive]; [done|].
    injection Hhit as Hv. exists now, tok, expiry, d. rewrite <- Hv.
    repeat split; try done; lia.
  - intros d Hd Hlt.
    destruct (Horigin d Hd) as (now & tok & expiry & _ & _ & _ & _ & Hpos & _).
    rewrite getClaimsForToken_result, getClaimsForToken_entries. fold key. rewrite Hd.
    rewrite read_slot_expired by lia.
    destruct (decide _) as [|Hn]; [|destruct Hn; lia].
    by rewrite lookup_delete_eq.
Qed.

(** C5.  A lookup is a total function with two outcomes, claims or the miss
    [None].  For a credential under whose key nothing was ever inserted,
    every lookup of any series of lookups misses; and a lookup misses when
    the entry of its key has expired. *)
Theorem getClaimsForToken_never_inserted cfg calls times accessToken :
  never_inserts (hasher.sha256 accessToken) calls = true ->
  let w := run calls (startup cfg) in
  Forall (fun r => r = None) (fst (lookups times accessToken w))
  /\ length (fst (lookups times accessToken w)) = length times
  /\ (forall (w' : World) T d,
        entries w' !! hasher.sha256 accessToken = Some d ->
        t d <> 0 -> t d < T ->
        fst (getClaimsForToken T accessToken w') = None).
Proof.
  intros Hnever w.
  assert (Hnone : entries w !! hasher.sha256 accessToken = None).
  { apply run_slot_absent; [done | apply startup_entries]. }
  destruct (lookups_absent times accessToken w Hnone) as [Hall Hlen].
  repeat split; try done.
  intros w' T d Hd Hne Hlt. rewrite getClaimsForToken_result, Hd.
  by apply read_slot_expired.
Qed.

(** C6.  Inserting a credential twice, first with claims A and then with
    claims B, both with a positive remaining lifetime, leaves the entry the
    second insertion alone would have left: a lookup within the second
    window returns B, and once the second time to live has run out the
    lookup misses, whatever the first one was. *)
Theorem addClaimsForToken_overwrites w now1 now2 accessToken expiry1 expiry2
    claimsA claimsB :
  expiry1 - now1 / 1000 > 0 ->
  expiry2 - now2 / 1000 > 0 ->
  let key := hasher.sha256 accessToken in
  let w2 := snd (addClaimsForToken now2 accessToken expiry2 claimsB
                   (snd (addClaimsForToken now1 accessToken expiry1 claimsA w))) in
  entries w2 !! key = Some (_wrap now2 claimsB (clamped w now2 expiry2))
  /\ entries w2 = entries (snd (addClaimsForToken now2 accessToken expiry2 claimsB w))
  /\ (forall T,
        T <= Z.min (expiry2 * 1000) (now2 + maxTtl w * 1000) ->
        fst (getClaimsForToken T accessToken w2) = Some claimsB)
  /\ (forall T,
        0 <= now2 -> 0 < maxTtl w ->
        now2 + clamped w now2 expiry2 * 1000 < T ->
        fst (getClaimsForToken T accessToken w2) = None).
Proof.
  intros Hpos1 Hpos2 key w2.
  assert (Hent : entries w2 = <[key := _wrap now2 claimsB (clamped w now2 expiry2)]> (entries w)).
  { unfold w2. rewrite addClaimsForToken_entries by done.
    rewrite addClaimsForToken_entries by done.
    unfold clamped. rewrite addClaimsForToken_maxTtl.
    apply insert_insert_eq. }
  assert (Hslot : entries w2 !! key = Some (_wrap now2 claimsB (clamped w now2 expiry2))).
  { rewrite Hent. apply lookup_insert_eq. }
  repeat split.
  - done.
  - by rewrite Hent, addClaimsForToken_entries.
  - intros T HT. rewrite getClaimsForToken_result. fold key. rewrite Hslot.
    rewrite read_slot_good; [done|]. by apply _wrap_good.
  - intros T Hnow Hmax HT. rewrite getClaimsForToken_result. fold key. rewrite Hslot.
    assert (clamped w now2 expiry2 > 0) by (unfold clamped; lia).
    apply read_slot_expired; rewrite _wrap_t by lia; lia.
Qed.

(** The digests of two standard test vectors. *)
Example sha256_empty :
  hasher.sha256 ""
  = "e3b0c44298fc1c149afbf4c8996fb92427ae41e4649b934ca495991b7852b855"%string.
Proof. vm_compute. reflexivity. Qed.

Example sha256_abc :
  hasher.sha256 "abc"
  = "ba7816bf8f01cfea414140de5dae2223b00361a396177a9cb410ff61f20015ad"%string.
Proof. vm_compute. reflexivity. Qed.

Lemma length_string_of_list_ascii (l : list ascii) :
  String.length (string_of_list_ascii l) = length l.
Proof. induction l as [|a l IH]; simpl; [done | by rewrite IH]. Qed.

Lemma sha256_length message : String.length (hasher.sha256 message) = 64%nat.
Proof.
  unfold hasher.sha256, hasher.hex. rewrite length_string_of_list_ascii.
  reflexivity.
Qed.

(** C7.  The cache key is a function of the credential string alone: the
    SHA-256 digest, always 64 hexadecimal characters long, so never a
    credential of another length.  Lookup and insertion derive it the same
    way: two credentials with the same digest are the same to both, an
    insertion writes the slot of the digest and no other, and a lookup reads
    that slot. *)
Theorem sha256_is_the_cache_key (w : World) now accessToken :
  let key := hasher.sha256 accessToken in
  String.length key = 64%nat
  /\ (String.length accessToken <> 64%nat -> key <> accessToken)
  /\ (forall accessToken',
        hasher.sha256 accessToken' = key ->
        getClaimsForToken now accessToken' w = getClaimsForToken now accessToken w
        /\ forall expiry claims,
             addClaimsForToken now accessToken' expiry claims w
             = addClaimsForToken now accessToken expiry claims w)
  /\ fst (getClaimsForToken now accessToken w) = read_slot now (entries w !! key)
  /\ (forall expiry claims,
        expiry - now / 1000 > 0 ->
        entries (snd (addClaimsForToken now accessToken expiry claims w)) !! key
        = Some (_wrap now claims (clamped w now expiry))
        /\ forall key', key' <> key ->
             entries (snd (addClaimsForToken now accessToken expiry claims w)) !! key'
             = entries w !! key').
Proof.
  intros key. split; [apply sha256_length|].
  split.
  { intros Hlen Heq. apply Hlen. rewrite <- Heq. apply sha256_length. }
  split.
  { intros accessToken' Hsame. split.
    - unfold getClaimsForToken. by rewrite Hsame.
    - intros expiry claims. unfold addClaimsForToken. by rewrite Hsame. }
  split; [apply getClaimsForToken_result|].
  intros expiry claims Hpos. rewrite addClaimsForToken_entries by done. split.
  - apply lookup_insert_eq.
  - intros key' Hne. by apply lookup_insert_ne.
Qed.

(** C8, as amended.  When [addClaimsForToken] discards a request because
    the remaining lifetime is zero or negative, it returns normally and
    writes nothing to the log: the discard shows neither in the caller's
    control flow nor on the logging channel.  An insertion that is kept
    writes two lines. *)
Theorem addClaimsForToken_discard_is_silent w now accessToken expiry claims :
  expiry - now / 1000 <= 0 ->
  fst (addClaimsForToken now accessToken expiry claims w) = tt
  /\ logged (snd (addClaimsForToken now accessToken expiry claims w)) = logged w
  /\ forall expiry',
       expiry' - now / 1000 > 0 ->
       length (logged (snd (addClaimsForToken now accessToken expiry' claims w)))
       = (length (logged w) + 2)%nat.
Proof.
  intros Hle. rewrite addClaimsForToken_discard by done. repeat split.
  intros expiry' Hpos. run_io.
  destruct (decide (expiry' - now / 1000 > 0)); [|lia].
  simpl. rewrite !length_app. simpl. lia.
Qed.

(** C9.  The empty credential is a credential like any other: its key is
    the digest of the empty string, a lookup of it reads the slot of that
    key, and once inserted with a positive remaining lifetime it is found
    again by a lookup within the window. *)
Theorem empty_credential_is_accepted w now expiry claims T :
  expiry - now / 1000 > 0 ->
  T <= Z.min (expiry * 1000) (now + maxTtl w * 1000) ->
  let key :=
    "e3b0c44298fc1c149afbf4c8996fb92427ae41e4649b934ca495991b7852b855"%string in
  hasher.sha256 "" = key
  /\ fst (getClaimsForToken T "" w) = read_slot T (entries w !! key)
  /\ entries (snd (addClaimsForToken now "" expiry claims w)) !! key
     = Some (_wrap now claims (clamped w now expiry))
  /\ fst (getClaimsForToken T "" (snd (addClaimsForToken now "" expiry claims w)))
     = Some claims.
Proof.
  intros Hpos HT key.
  assert (Hkey : hasher.sha256 "" = key) by (vm_compute; reflexivity).
  rewrite !getClaimsForToken_result, addClaimsForToken_entries by done.
  rewrite Hkey, lookup_insert_eq. repeat split.
  rewrite read_slot_good; [done|]. by apply _wrap_good.
Qed.

(** C10.  [addClaimsForToken] measures the remaining lifetime from the
    clock rounded down to whole seconds, so the seconds it caches for exceed
    the true remaining lifetime by the milliseconds into the current second:
    at least 0 and below 1000.  A credential with any positive lifetime left,
    however short, is therefore cached and not discarded, and an entry that
    the ceiling does not cut short outlives its credential by that much. *)
Theorem addClaimsForToken_floors_the_clock w now accessToken expiry claims :
  0 < expiry * 1000 - now ->
  let secondsToCache := expiry - now / 1000 in
  let d := _wrap now claims (Z.min secondsToCache (maxTtl w)) in
  secondsToCache * 1000 - (expiry * 1000 - now) = now mod 1000
  /\ 0 <= now mod 1000 < 1000
  /\ secondsToCache > 0
  /\ entries (snd (addClaimsForToken now accessToken expiry claims w))
       !! hasher.sha256 accessToken = Some d
  /\ (secondsToCache <= maxTtl w -> t d = expiry * 1000 + now mod 1000).
Proof.
  intros Htrue secondsToCache d.
  pose proof (Z.mod_pos_bound now 1000 ltac:(lia)) as Hmod.
  pose proof (Z.div_mod now 1000 ltac:(lia)) as Hdiv.
  assert (Hpos : secondsToCache > 0) by (unfold secondsToCache; lia).
  repeat split; try lia.
  - rewrite addClaimsForToken_entries by done. apply lookup_insert_eq.
  - intros Hle. unfold d. rewrite _wrap_t by lia. unfold secondsToCache in *. lia.
Qed.

(** The clamp.  When the ceiling is not zero, an insertion with a positive
    remaining lifetime stores the claims in an entry that expires
    [min(secondsToCache, maxTtl)] seconds after the reading of the clock. *)
Lemma addClaimsForToken_stores w now accessToken expiry claims :
  expiry - now / 1000 > 0 ->
  maxTtl w <> 0 ->
  entries (snd (addClaimsForToken now accessToken expiry claims w))
    !! hasher.sha256 accessToken
  = Some {| t := now + Z.min (expiry - now / 1000) (maxTtl w) * 1000; v := claims |}.
Proof.
  intros Hpos Hmax. rewrite addClaimsForToken_entries by done.
  rewrite lookup_insert_eq. unfold _wrap, clamped.
  destruct (decide _); [lia | done].
Qed.

(** ** Beyond the claims: what histories of calls do to the store *)

Lemma step_slot_insert w c key :
  inserts_under key c = true ->
  exists now accessToken expiry claims,
    c = AddClaims now accessToken expiry claims
    /\ hasher.sha256 accessToken = key /\ expiry - now / 1000 > 0
    /\ entries (step w c) !! key = Some (_wrap now claims (clamped w now expiry)).
Proof.
  destruct c as [? ? | now tok expiry claims | ? ?]; simpl; try done.
  intros [Hk Hpos]%bool_decide_eq_true. exists now, tok, expiry, claims.
  rewrite addClaimsForToken_entries by done. rewrite Hk, lookup_insert_eq. done.
Qed.

Lemma step_slot_other w c key :
  inserts_under key c = false ->
  entries (step w c) !! key = entries w !! key
  \/ (entries (step w c) !! key = None
      /\ exists d, entries w !! key = Some d /\ t d <> 0 /\ t d < time_of c).
Proof.
  intros Hc. destruct (step_slot w c key) as [Heq | [Hgone | Hins]]; [by left | by right |].
  destruct Hins as (now & tok & expiry & claims & -> & Hk & Hpos & _).
  by destruct (inserts_under_false _ _ _ _ _ Hc Hk Hpos).
Qed.

(** Between two insertions under its key an entry is never changed, and it
    is removed only by a call that reads the clock past its instant. *)
Lemma run_slot_kept_or_gone calls w key d :
  never_inserts key calls = true ->
  entries w !! key = Some d ->
  entries (run calls w) !! key = Some d
  \/ (entries (run calls w) !! key = None
      /\ exists c, In c calls /\ t d <> 0 /\ t d < time_of c).
Proof.
  revert w. induction calls as [|c calls IH]; intros w Hnever Hd; [by left|].
  simpl in Hnever. apply andb_true_iff in Hnever as [Hc Hnever].
  apply negb_true_iff in Hc. simpl.
  destruct (step_slot_other w c key Hc) as [Heq | [Hgone (d' & Hd' & Hne & Hlt)]].
  - rewrite Hd in Heq. destruct (IH _ Hnever Heq) as [Hkept | [Hnone (c' & Hin & Hexp)]].
    + by left.
    + right. split; [done|]. exists c'. split; [by right | done].
  - right. simplify_eq. split.
    + by apply run_slot_absent.
    + exists c. split; [by left | done].
Qed.

Lemma clamped_step w c now expiry : clamped (step w c) now expiry = clamped w now expiry.
Proof. unfold clamped. by rewrite step_maxTtl. Qed.

Lemma later_insert_other key found c :
  inserts_under key c = false -> later_insert key found c = found.
Proof. intros Hc. destruct c; simpl in *; [done | by rewrite Hc | done]. Qed.

(** The entry of a slot is the one the last insertion under its key made. *)
Lemma run_slot_last calls w key found :
  (forall d, entries w !! key = Some d ->
     exists now expiry, found = Some (now, expiry, v d)
                        /\ d = _wrap now (v d) (clamped w now expiry)) ->
  forall d, entries (run calls w) !! key = Some d ->
    exists now expiry,
      fold_left (later_insert key) calls found = Some (now, expiry, v d)
      /\ d = _wrap now (v d) (clamped w now expiry).
Proof.
  revert w found. induction calls as [|c calls IH]; intros w found Hw d Hd; [by apply Hw|].
  simpl in *.
  destruct (IH (step w c) (later_insert key found c)) with (d := d)
    as (now & expiry & Hfold & Heq); [|done|].
  - intros d' Hd'. destruct (inserts_under key c) eqn:Hc.
    + destruct (step_slot_insert w c key Hc)
        as (now & tok & expiry & claims & -> & Hk & Hpos & Hnew).
      rewrite Hnew in Hd'. injection Hd' as <-. exists now, expiry.
      rewrite clamped_step. unfold later_insert. by rewrite Hc.
    + rewrite later_insert_other by done.
      destruct (step_slot_other w c key Hc) as [Hsame | [Hgone _]]; [|congruence].
      rewrite Hsame in Hd'. destruct (Hw d' Hd') as (now & expiry & Hf & Heq).
      exists now, expiry. by rewrite clamped_step.
  - exists now, expiry. by rewrite clamped_step in Heq.
Qed.


(** X2.  Last write wins over whole histories: whatever was looked up,
    inserted or swept since startup, a lookup that hits returns the claims
    of the most recent insertion stored under its key, in the entry that
    insertion made. *)
Theorem getClaimsForToken_returns_last_insert cfg calls T accessToken claims :
  let w := run calls (startup cfg) in
  let key := hasher.sha256 accessToken in
  fst (getClaimsForToken T accessToken w) = Some claims ->
  exists now expiry,
    last_insert key calls = Some (now, expiry, claims)
    /\ entries w !! key
       = Some (_wrap now claims
                 (Z.min (expiry - now / 1000) (maxClaimsCacheMinutes cfg * 60))).
Proof.
  intros w key Hhit. rewrite getClaimsForToken_result in Hhit. fold key in Hhit.
  destruct (entries w !! key) as [d|] eqn:Hd; [|done].
  simpl in Hhit. destruct (decide _); [done|]. injection Hhit as Hv.
  destruct (run_slot_last calls (startup cfg) key None) with (d := d)
    as (now & expiry & Hlast & Heq); [|done|].
  - intros d'. by rewrite startup_entries.
  - exists now, expiry. rewrite Hv in Hlast, Heq. split; [done|].
    by rewrite Heq.
Qed.


(** X4.  With a ceiling of zero an entry, once inserted, is served for good:
    every later lookup returns its claims, at any reading of the clock and
    whatever lookups, sweeps and insertions under other keys come in
    between. *)
Theorem zero_ceiling_never_expires w now accessToken expiry claims calls T :
  maxTtl w = 0 ->
  expiry - now / 1000 > 0 ->
  never_inserts (hasher.sha256 accessToken) calls = true ->
  fst (getClaimsForToken T accessToken
         (run calls (snd (addClaimsForToken now accessToken expiry claims w))))
  = Some claims.
Proof.
  intros Hzero Hpos Hnever. rewrite getClaimsForToken_result.
  set (d := _wrap now claims (clamped w now expiry)).
  assert (Ht : t d = 0).
  { unfold d, clamped, _wrap. rewrite Hzero. simpl. destruct (decide _); [done | lia]. }
  destruct (run_slot_kept_or_gone calls
              (snd (addClaimsForToken now accessToken expiry claims w))
              (hasher.sha256 accessToken) d Hnever)
    as [Hkept | [_ (c & _ & Hne & _)]]; [| |done].
  - rewrite addClaimsForToken_entries by done. apply lookup_insert_eq.
  - rewrite Hkept. rewrite read_slot_good; [done | by left].
Qed.

(** X5.  With a negative ceiling nothing is ever served: the entry an
    insertion stores has its instant before the insertion itself, so every
    lookup from then on misses.  (The instant must not be the 0 that marks
    an entry without expiry.) *)
Theorem negative_ceiling_never_serves w now accessToken expiry claims calls T :
  maxTtl w < 0 ->
  expiry - now / 1000 > 0 ->
  now + maxTtl w * 1000 <> 0 ->
  never_inserts (hasher.sha256 accessToken) calls = true ->
  now <= T ->
  fst (getClaimsForToken T accessToken
         (run calls (snd (addClaimsForToken now accessToken expiry claims w))))
  = None.
Proof.
  intros Hneg Hpos Hmark Hnever Hafter. rewrite getClaimsForToken_result.
  set (d := _wrap now claims (clamped w now expiry)).
  assert (Ht : t d = now + maxTtl w * 1000).
  { unfold d. rewrite _wrap_t; unfold clamped; lia. }
  destruct (run_slot_kept_or_gone calls
              (snd (addClaimsForToken now accessToken expiry claims w))
              (hasher.sha256 accessToken) d Hnever) as [Hkept | [Hgone _]].
  - rewrite addClaimsForToken_entries by done. apply lookup_insert_eq.
  - rewrite Hkept. apply read_slot_expired; lia.
  - by rewrite Hgone.
Qed.

(** X6.  The store is keyed by digests only: at any point of any history
    since startup, every key of the store is the SHA-256 digest, 64
    characters long, of a credential that the history inserted together with
    the claims the entry holds. *)
Theorem store_keys_are_digests cfg calls key d :
  entries (run calls (startup cfg)) !! key = Some d ->
  String.length key = 64%nat
  /\ exists now accessToken expiry,
       In (AddClaims now accessToken expiry (v d)) calls
       /\ hasher.sha256 accessToken = key
       /\ expiry - now / 1000 > 0.
Proof.
  intros Hd. apply run_slot_origin in Hd.
  destruct Hd as [Hd | (now & tok & expiry & Hin & Hk & Hpos & _)].
  - by rewrite startup_entries in Hd.
  - split.
    + rewrite <- Hk. apply sha256_length.
    + by exists now, tok, expiry.
Qed.

Lemma step_untouched w c key :
  concerns key c = false -> entries (step w c) !! key = entries w !! key.
Proof.
  intros Hc. destruct c as [now tok | now tok expiry claims | now k]; simpl in *;
    apply bool_decide_eq_false in Hc.
  - rewrite getClaimsForToken_entries.
    destruct (entries w !! hasher.sha256 tok); [|done].
    destruct (decide _); [|done]. by rewrite lookup_delete_ne.
  - destruct (decide (expiry - now / 1000 > 0)).
    + rewrite addClaimsForToken_entries by done. by rewrite lookup_insert_ne.
    + by rewrite addClaimsForToken_discard by lia.
  - rewrite checkData_step_entries.
    destruct (entries w !! k); [|done].
    destruct (decide _); [|done]. by rewrite lookup_delete_ne.
Qed.

(** X8.  Keys do not interfere: a history of calls that all concern other
    keys leaves the slot of a key as it was, so a lookup of a credential
    answers after them exactly as it would have before them. *)
Theorem other_keys_do_not_interfere calls w T accessToken :
  untouched (hasher.sha256 accessToken) calls = true ->
  entries (run calls w) !! hasher.sha256 accessToken
  = entries w !! hasher.sha256 accessToken
  /\ fst (getClaimsForToken T accessToken (run calls w))
     = fst (getClaimsForToken T accessToken w).
Proof.
  intros Huntouched.
  assert (Hslot : entries (run calls w) !! hasher.sha256 accessToken
                  = entries w !! hasher.sha256 accessToken).
  { revert w. induction calls as [|c calls IH]; intros w; [done|].
    simpl in Huntouched. apply andb_true_iff in Huntouched as [Hc Hrest].
    apply negb_true_iff in Hc. simpl. rewrite IH by done.
    by apply step_untouched. }
  split; [done|]. by rewrite !getClaimsForToken_result, Hslot.
Qed.

(** X9.  No renewal and no early eviction: between two insertions under its
    key an entry keeps its claims and its instant whatever is looked up or
    swept, and if it is gone after calls that read the clock up to [hi],
    then its instant lies before [hi]. *)
Theorem entry_lives_until_its_instant calls w key d lo hi :
  never_inserts key calls = true ->
  clock_within lo hi calls = true ->
  entries w !! key = Some d ->
  entries (run calls w) !! key = Some d
  \/ (entries (run calls w) !! key = None /\ t d <> 0 /\ t d < hi).
Proof.
  intros Hnever Hclock Hd.
  destruct (run_slot_kept_or_gone calls w key d Hnever Hd)
    as [Hkept | [Hgone (c & Hin & Hne & Hlt)]]; [by left | right].
  pose proof (clock_within_In _ _ _ _ Hclock Hin). repeat split; try done. lia.
Qed.

(** ** Beyond the claims: the log of expiry events *)










(** X10.  The ceiling is fixed at construction: after any history of calls
    since startup it is still the configured minutes times 60, in seconds. *)
Theorem ceiling_is_fixed_at_startup cfg calls :
  maxTtl (run calls (startup cfg)) = maxClaimsCacheMinutes cfg * 60.
Proof. by rewrite run_maxTtl, startup_maxTtl. Qed.

(** X11.  A miss stays a miss: once a lookup of a credential has missed,
    every later lookup of it misses too, at any reading of the clock (even
    an earlier one), until something is inserted under its key again. *)
Theorem miss_until_next_insertion w T accessToken calls T' :
  fst (getClaimsForToken T accessToken w) = None ->
  never_inserts (hasher.sha256 accessToken) calls = true ->
  fst (getClaimsForToken T' accessToken
         (run calls (snd (getClaimsForToken T accessToken w))))
  = None.
Proof.
  intros Hmiss Hnever. rewrite getClaimsForToken_result in Hmiss.
  rewrite getClaimsForToken_result, run_slot_absent; [done | done |].
  rewrite getClaimsForToken_entries.
  destruct (entries w !! hasher.sha256 accessToken) as [d|] eqn:Hd; [|done].
  simpl in Hmiss. destruct (decide _); [|done]. apply lookup_delete_eq.
Qed.

End ClaimsCache.

(** ** The claims at concrete inputs *)

(** C1.  With a ceiling of zero minutes the clamp hands a time to live of
    zero to the store, which keeps such an entry for good: a token with ten
    seconds left is still served a day later. *)
Theorem addClaimsForToken_zero_ceiling :
  let w0 := startup {| maxClaimsCacheMinutes := 0 |} in
  let w := snd (addClaimsForToken 1700000000000 "token" 1700000010
                  [("sub", "alice")] w0) in
  clamped w0 1700000000000 1700000010 = 0
  /\ entries w !! hasher.sha256 "token" = Some {| t := 0; v := [("sub", "alice")] |}
  /\ fst (getClaimsForToken (1700000000000 + 86400000) "token" w)
     = Some [("sub", "alice")].
Proof. vm_compute. repeat split. Qed.

Lemma getClaimsForToken_after_add_witness :
  fst (getClaimsForToken 1700000300123 "token"
         (run [GetClaims 1700000100000 "token";
               AddClaims 1700000150000 "other" 1700000160 [("sub", "bob")];
               CheckData 1700000200000 (hasher.sha256 "token")]
            (snd (addClaimsForToken 1700000000123 "token" 1700010000
                    [("sub", "alice")]
                    (startup {| maxClaimsCacheMinutes := 5 |})))))
  = Some [("sub", "alice")].
Proof.
  apply getClaimsForToken_after_add.
  - vm_compute. reflexivity.
  - apply Z.leb_le. vm_compute. reflexivity.
  - vm_compute. reflexivity.
  - vm_compute. reflexivity.
Defined.

Lemma addClaimsForToken_expired_noop_witness :
  let w := startup {| maxClaimsCacheMinutes := 5 |} in
  addClaimsForToken 1700000000000 "token" 1699999995 [("sub", "alice")] w = (tt, w)
  /\ fst (getClaimsForToken 1700000000001 "token"
            (snd (addClaimsForToken 1700000000000 "token" 1699999995
                    [("sub", "alice")] w)))
     = None.
Proof.
  intros w.
  destruct (addClaimsForToken_expired_noop w 1700000000000 "token" 1699999995
              [("sub", "alice")]) as (Hsame & _ & Hlookup).
  - apply Z.leb_le. vm_compute. reflexivity.
  - split; [exact Hsame|]. rewrite Hlookup. vm_compute. reflexivity.
Defined.

(** C4, the claim as stated.  An entry stored on the second 1700000000 for
    one second has the instant 1700000001000, and a lookup at that very
    instant still returns it: there the clock is not before the expiry. *)
Lemma getClaimsForToken_hit_at_expiry :
  let w := snd (addClaimsForToken 1700000000000 "token" 1700000001
                  [("sub", "alice")]
                  (startup {| maxClaimsCacheMinutes := 5 |})) in
  entries w !! hasher.sha256 "token"
  = Some {| t := 1700000001000; v := [("sub", "alice")] |}
  /\ fst (getClaimsForToken 1700000001000 "token" w) = Some [("sub", "alice")]
  /\ ~ (1700000001000 < 1700000001000).
Proof. split; [|split]; [vm_compute; reflexivity .. | lia]. Qed.

Lemma getClaimsForToken_hit_is_live_witness :
  let calls := [AddClaims 1700000000000 "token" 1700000001 [("sub", "alice")]] in
  let w := run calls (startup {| maxClaimsCacheMinutes := 5 |}) in
  (exists now accessToken' expiry d,
     In (AddClaims now accessToken' expiry [("sub", "alice")]) calls
     /\ hasher.sha256 accessToken' = hasher.sha256 "token"
     /\ entries w !! hasher.sha256 "token" = Some d /\ v d = [("sub", "alice")]
     /\ t d = now + Z.min (expiry - now / 1000) (maxTtl w) * 1000
     /\ now <= 1700000001000 /\ 1700000001000 <= t d
     /\ t d <= now + maxTtl w * 1000)
  /\ fst (getClaimsForToken 1700000001001 "token" w) = None
  /\ entries (snd (getClaimsForToken 1700000001001 "token" w))
       !! hasher.sha256 "token" = None.
Proof.
  intros calls w. split.
  - refine (proj1 (getClaimsForToken_hit_is_live {| maxClaimsCacheMinutes := 5 |}
                     calls 1700000001000 "token" _ _) _ _).
    + simpl. lia.
    + vm_compute. reflexivity.
    + vm_compute. reflexivity.
  - refine (proj2 (getClaimsForToken_hit_is_live {| maxClaimsCacheMinutes := 5 |}
                     calls 1700000001001 "token" _ _)
              {| t := 1700000001000; v := [("sub", "alice")] |} _ _).
    + simpl. lia.
    + vm_compute. reflexivity.
    + vm_compute. reflexivity.
    + simpl. lia.
Defined.

Lemma getClaimsForToken_never_inserted_witness :
  Forall (fun r => r = None)
    (fst (lookups [1700000000500; 1700000000900; 1700000400000] "token"
            (run [AddClaims 1700000000000 "other" 1700000100 [("sub", "bob")];
                  GetClaims 1700000000100 "token";
                  AddClaims 1700000000200 "token" 1700000000 [("sub", "alice")]]
               (startup {| maxClaimsCacheMinutes := 5 |})))).
Proof.
  refine (proj1 (getClaimsForToken_never_inserted _ _ _ "token" _)).
  vm_compute. reflexivity.
Defined.

Lemma addClaimsForToken_overwrites_witness :
  let w := startup {| maxClaimsCacheMinutes := 5 |} in
  let w2 := snd (addClaimsForToken 1700000010000 "token" 1700000060 [("sub", "B")]
                   (snd (addClaimsForToken 1700000000000 "token" 1700000100
                           [("sub", "A")] w))) in
  entries w2 !! hasher.sha256 "token"
  = Some {| t := 1700000060000; v := [("sub", "B")] |}
  /\ fst (getClaimsForToken 1700000060000 "token" w2) = Some [("sub", "B")]
  /\ fst (getClaimsForToken 1700000060001 "token" w2) = None.
Proof.
  intros w w2.
  destruct (addClaimsForToken_overwrites w 1700000000000 1700000010000 "token"
              1700000100 1700000060 [("sub", "A")] [("sub", "B")])
    as (Hslot & _ & Hhit & Hmiss).
  - vm_compute. reflexivity.
  - vm_compute. reflexivity.
  - split; [exact Hslot|]. split.
    + apply Hhit. apply Z.leb_le. vm_compute. reflexivity.
    + apply Hmiss; [lia | vm_compute; reflexivity | vm_compute; reflexivity].
Defined.

Lemma sha256_is_the_cache_key_witness :
  String.length (hasher.sha256 "token") = 64%nat
  /\ hasher.sha256 "token" <> "token"%string
  /\ hasher.sha256 "token"
     = "3c469e9d6c5875d37a43f353d4f88e61fcf812c66eee3457465a40b0da4153e0"%string.
Proof.
  destruct (sha256_is_the_cache_key
              (startup (ApiClaims := list (string * string))
                 {| maxClaimsCacheMinutes := 5 |})
              1700000000000 "token") as (Hlen & Hraw & _).
  split; [exact Hlen|]. split.
  - apply Hraw. vm_compute. lia.
  - vm_compute. reflexivity.
Defined.

(** C8, the claim as stated.  A token that expired five seconds ago is
    discarded and the log stays empty: no event tells of the discard. *)
Lemma addClaimsForToken_discard_logs_nothing :
  let w := startup {| maxClaimsCacheMinutes := 5 |} in
  1699999995 - 1700000000000 / 1000 <= 0
  /\ logged w = []
  /\ logged (snd (addClaimsForToken 1700000000000 "token" 1699999995
                    [("sub", "alice")] w)) = [].
Proof. split; [|split]; [apply Z.leb_le | ..]; vm_compute; reflexivity. Qed.

Lemma addClaimsForToken_discard_is_silent_witness :
  let w := startup {| maxClaimsCacheMinutes := 5 |} in
  fst (addClaimsForToken 1700000000000 "token" 1699999995 [("sub", "alice")] w) = tt
  /\ logged (snd (addClaimsForToken 1700000000000 "token" 1699999995
                    [("sub", "alice")] w)) = logged w
  /\ length (logged (snd (addClaimsForToken 1700000000000 "token" 1700000005
                            [("sub", "alice")] w)))
     = (length (logged w) + 2)%nat.
Proof.
  intros w.
  destruct (addClaimsForToken_discard_is_silent w 1700000000000 "token" 1699999995
              [("sub", "alice")]) as (Hret & Hlog & Hkept).
  - apply Z.leb_le. vm_compute. reflexivity.
  - split; [exact Hret|]. split; [exact Hlog|].
    apply Hkept. vm_compute. reflexivity.
Defined.

Lemma empty_credential_is_accepted_witness :
  let w := startup {| maxClaimsCacheMinutes := 5 |} in
  fst (getClaimsForToken 1700000050000 "" w) = None
  /\ fst (getClaimsForToken 1700000050000 ""
            (snd (addClaimsForToken 1700000000000 "" 1700000100
                    [("sub", "alice")] w)))
     = Some [("sub", "alice")].
Proof.
  intros w.
  destruct (empty_credential_is_accepted w 1700000000000 1700000100
              [("sub", "alice")] 1700000050000) as (_ & Hread & _ & Hfound).
  - vm_compute. reflexivity.
  - apply Z.leb_le. vm_compute. reflexivity.
  - split; [|exact Hfound]. rewrite Hread. vm_compute. reflexivity.
Defined.

Lemma addClaimsForToken_floors_the_clock_witness :
  let w := startup {| maxClaimsCacheMinutes := 5 |} in
  0 < 1700000001 * 1000 - 1700000000999
  /\ (1700000001 - 1700000000999 / 1000) * 1000
     - (1700000001 * 1000 - 1700000000999) = 999
  /\ entries (snd (addClaimsForToken 1700000000999 "token" 1700000001
                     [("sub", "alice")] w)) !! hasher.sha256 "token"
     = Some {| t := 1700000001999; v := [("sub", "alice")] |}.
Proof.
  intros w.
  destruct (addClaimsForToken_floors_the_clock w 1700000000999 "token" 1700000001
              [("sub", "alice")]) as (Hexcess & _ & _ & Hslot & _).
  - lia.
  - split; [lia|]. split.
    + rewrite Hexcess. vm_compute. reflexivity.
    + rewrite Hslot. vm_compute. reflexivity.
Defined.

(** The clamp at work: with a ceiling of 300 seconds, a token with 10000
    seconds left is kept for 300 seconds. *)
Lemma addClaimsForToken_stores_witness :
  entries (snd (addClaimsForToken 1700000000123 "token" 1700010000
                  [("sub", "alice")]
                  (startup {| maxClaimsCacheMinutes := 5 |})))
    !! hasher.sha256 "token"
  = Some {| t := 1700000000123 + 300 * 1000; v := [("sub", "alice")] |}.
Proof.
  rewrite (addClaimsForToken_stores _ 1700000000123 "token" 1700010000).
  - vm_compute. reflexivity.
  - vm_compute. reflexivity.
  - vm_compute. lia.
Defined.

(** ** Beyond the claims, at concrete inputs *)

Lemma getClaimsForToken_returns_last_insert_witness :
  let calls := [AddClaims 1700000000000 "token" 1700000100 [("sub", "A")];
                GetClaims 1700000005000 "token";
                AddClaims 1700000010000 "token" 1700000060 [("sub", "B")];
                AddClaims 1700000020000 "token" 1700000020 [("sub", "C")]] in
  fst (getClaimsForToken 1700000030000 "token"
         (run calls (startup {| maxClaimsCacheMinutes := 5 |})))
  = Some [("sub", "B")]
  /\ exists now expiry,
       last_insert (hasher.sha256 "token") calls = Some (now, expiry, [("sub", "B")])
       /\ entries (run calls (startup {| maxClaimsCacheMinutes := 5 |}))
            !! hasher.sha256 "token"
          = Some (_wrap now [("sub", "B")] (Z.min (expiry - now / 1000) (5 * 60))).
Proof.
  intros calls. split; [vm_compute; reflexivity|].
  apply (getClaimsForToken_returns_last_insert {| maxClaimsCacheMinutes := 5 |}
           calls 1700000030000 "token").
  vm_compute. reflexivity.
Defined.


Lemma zero_ceiling_never_expires_witness :
  fst (getClaimsForToken 1800000000000 "token"
         (run [GetClaims 1700000500000 "token";
               CheckData 1700000600000 (hasher.sha256 "token")]
            (snd (addClaimsForToken 1700000000000 "token" 1700000010
                    [("sub", "alice")]
                    (startup {| maxClaimsCacheMinutes := 0 |})))))
  = Some [("sub", "alice")].
Proof.
  apply zero_ceiling_never_expires.
  - vm_compute. reflexivity.
  - vm_compute. reflexivity.
  - vm_compute. reflexivity.
Defined.

Lemma negative_ceiling_never_serves_witness :
  fst (getClaimsForToken 1700000000000 "token"
         (run []
            (snd (addClaimsForToken 1700000000000 "token" 1700000010
                    [("sub", "alice")]
                    (startup {| maxClaimsCacheMinutes := -1 |})))))
  = None.
Proof.
  apply negative_ceiling_never_serves.
  - apply Z.ltb_lt. vm_compute. reflexivity.
  - vm_compute. reflexivity.
  - vm_compute. lia.
  - vm_compute. reflexivity.
  - lia.
Defined.

Lemma store_keys_are_digests_witness :
  let calls := [AddClaims 1700000000000 "token" 1700000100 [("sub", "alice")]] in
  String.length (hasher.sha256 "token") = 64%nat
  /\ exists now accessToken expiry,
       In (AddClaims now accessToken expiry [("sub", "alice")]) calls
       /\ hasher.sha256 accessToken = hasher.sha256 "token"
       /\ expiry - now / 1000 > 0.
Proof.
  intros calls.
  apply (store_keys_are_digests {| maxClaimsCacheMinutes := 5 |} calls
           (hasher.sha256 "token")
           {| t := 1700000100000; v := [("sub", "alice")] |}).
  vm_compute. reflexivity.
Defined.

Lemma other_keys_do_not_interfere_witness :
  let w := snd (addClaimsForToken 1700000000000 "token" 1700000100
                  [("sub", "alice")]
                  (startup {| maxClaimsCacheMinutes := 5 |})) in
  let calls := [AddClaims 1700000001000 "other" 1700000100 [("sub", "bob")];
                GetClaims 1700000002000 "third";
                CheckData 1700000003000 (hasher.sha256 "other")] in
  fst (getClaimsForToken 1700000050000 "token" (run calls w))
  = fst (getClaimsForToken 1700000050000 "token" w)
  /\ fst (getClaimsForToken 1700000050000 "token" w) = Some [("sub", "alice")].
Proof.
  intros w calls. split; [|vm_compute; reflexivity].
  apply (other_keys_do_not_interfere calls w 1700000050000 "token").
  vm_compute. reflexivity.
Defined.

Lemma entry_lives_until_its_instant_witness :
  let w := snd (addClaimsForToken 1700000000000 "token" 1700000100
                  [("sub", "alice")]
                  (startup {| maxClaimsCacheMinutes := 5 |})) in
  let d := {| t := 1700000100000; v := [("sub", "alice")] |} in
  let calls := [GetClaims 1700000050000 "token";
                CheckData 1700000100000 (hasher.sha256 "token")] in
  entries (run calls w) !! hasher.sha256 "token" = Some d
  \/ (entries (run calls w) !! hasher.sha256 "token" = None
      /\ t d <> 0 /\ t d < 1700000100000).
Proof.
  intros w d calls.
  apply (entry_lives_until_its_instant calls w (hasher.sha256 "token") d
           1700000000000 1700000100000).
  - vm_compute. reflexivity.
  - vm_compute. reflexivity.
  - vm_compute. reflexivity.
Defined.

Lemma miss_until_next_insertion_witness :
  let w := snd (addClaimsForToken 1700000000000 "token" 1700000001
                  [("sub", "alice")]
                  (startup {| maxClaimsCacheMinutes := 5 |})) in
  fst (getClaimsForToken 1700000000500 "token"
         (run [AddClaims 1700000001500 "other" 1700000100 [("sub", "bob")]]
            (snd (getClaimsForToken 1700000001001 "token" w))))
  = None
  /\ fst (getClaimsForToken 1700000000500 "token" w) = Some [("sub", "alice")].
Proof.
  intros w. split; [|vm_compute; reflexivity].
  apply miss_until_next_insertion.
  - vm_compute. reflexivity.
  - vm_compute. reflexivity.
Defined.
